(** * SecureSavedObjectsClient: the authorization gateway in front of the
      saved objects repositories

    Shallow embedding of
    [x-pack/plugins/security/server/lib/saved_objects_client/secure_saved_objects_client.js].

    The client is a decorator: each of its seven public methods derives the
    saved-object type(s) of the call, maps them to action names, asks the
    privilege checker, and then either forwards the call to one of two
    repositories, or throws.  The embedding threads a chronological trace of
    the calls made to the collaborators (checker, audit logger, repositories)
    through a small state-and-exception monad, so that "is invoked", "is
    never invoked" and "happens before" are statements about that trace. *)

From Stdlib Require Import String Ascii List Permutation Sorted.
From Stdlib Require OrdersEx.
From stdpp Require Import base option list sorting strings gmap.

Local Open Scope string_scope.
Local Open Scope list_scope.
Local Open Scope stdpp_scope.

(** ** Values *)

(** A JavaScript object used as a bag of properties (attributes, a saved
    object of a bulk request).  [o !! "type"] is [o.type]; [None] is
    [undefined]; [∅] is the literal [{}]. *)
Abbreviation jsobject := (gmap string string).

(** A saved-object type as the client meets it: a string, or [undefined]
    ([None]) when the property or argument is absent. *)
Definition so_type := option string.

(** The value of a property of an options object: a string, or an array of
    type names, which is what [find] may be given as its [type] filter. *)
Inductive option_value :=
| OString (s : string)
| OArray (types : list so_type).

(** An options object (the last argument of every method). *)
Abbreviation jsoptions := (gmap string option_value).

(** An action name, as produced by [actions.getSavedObjectAction]. *)
Definition Action := string.

(** The first argument of [_execute]: an array of types ([Array.isArray] is
    true) or one type. *)
Inductive typeOrTypes :=
| OneType (type : so_type)
| TypeArray (types : list so_type).

(** [options.type] as [find] hands it to [_execute]: the property as it is,
    an array when it holds one, one type (a name, or [undefined] when the
    property is absent) otherwise. *)
Definition as_typeOrTypes (v : option option_value) : typeOrTypes :=
  match v with
  | Some (OArray types) => TypeArray types
  | Some (OString s) => OneType (Some s)
  | None => OneType None
  end.

(** Modelled from the spec: [CHECK_PRIVILEGES_RESULT] is imported from
    [../authorization/check_privileges], which is not among the sources.  It
    holds three distinct constants; [Unrecognized] stands for any other value
    found in the [result] field of what the checker returns. *)
Inductive CHECK_PRIVILEGES_RESULT :=
| AUTHORIZED
| LEGACY
| UNAUTHORIZED
| Unrecognized (tag : string).

(** What [checkPrivileges] resolves to: [{ result, username, missing }],
    [missing] being the array of the actions the user lacks. *)
Record check_result := {
  result : CHECK_PRIVILEGES_RESULT;
  username : string;
  missing : list Action
}.

(** ** Errors *)

(** A property that holds [null] or an object. *)
Inductive or_null (A : Type) :=
| JNull
| JObject (a : A).
Arguments JNull {A}.
Arguments JObject {A} a.

(** An error object as a collaborator throws it.  The checker's errors may
    carry a response body, whose [error] property may carry a [reason]; each
    level is optional, [None] being a property that is absent, and the
    [error] property may also hold [null]. *)
Record error_detail := { reason : option string }.
Record error_body := { error : option (or_null error_detail) }.
Record Error := { message : string; body : option error_body }.

(** [new Error(msg)] *)
Definition new_Error (msg : string) : Error := {| message := msg; body := None |}.

(** Modelled from the spec: the [errors] factory handed to the constructor is
    not among the sources.  [decorateGeneralError(error, reason)] and
    [decorateForbiddenError(error)] are kept as constructors around the error
    they decorate; [Raw] is an error thrown as it is, and [TypeError] the
    error the language itself throws when a property of [null] is read. *)
Inductive thrown :=
| Raw (e : Error)
| decorateGeneralError (e : Error) (reason : option string)
| decorateForbiddenError (e : Error)
| TypeError.

(** ** Calls to the collaborators *)

(** The [args] object handed to the audit logger: the arguments of the public
    call, by name; a property the method does not set is [None]. *)
Record args := {
  args_type : option so_type;
  args_id : option string;
  args_attributes : option jsobject;
  args_objects : option (list jsobject);
  args_options : option jsoptions
}.

(** A method of a repository together with its arguments. *)
Inductive method_call :=
| Create (type : so_type) (attributes : jsobject) (options : jsoptions)
| BulkCreate (objects : list jsobject) (options : jsoptions)
| Delete (type : so_type) (id : string) (options : jsoptions)
| Find (options : jsoptions)
| BulkGet (objects : list jsobject) (options : jsoptions)
| Get (type : so_type) (id : string) (options : jsoptions)
| Update (type : so_type) (id : string) (attributes : jsobject)
    (options : jsoptions).

(** The two repositories the client holds. *)
Inductive repository_role := Internal | CallWithRequest.

(** One entry of the trace: a call made by the client to a collaborator. *)
Inductive event :=
| CheckPrivileges (actions : list Action)
| savedObjectsAuthorizationSuccess
    (username : string) (action : string) (types : list so_type) (a : args)
| savedObjectsAuthorizationFailure
    (username : string) (action : string) (types : list so_type)
    (missing : list Action) (a : args)
| Invoked (r : repository_role) (c : method_call).

Definition trace := list event.

(** ** The monad of the client's methods

    A computation reads the trace so far and gives the extended trace with
    either a thrown value ([inl]) or a result ([inr]).  [E] is the type of
    what the computation may throw. *)
Definition M (E A : Type) : Type := trace → trace * (E + A).

Definition ret {E A} (a : A) : M E A := λ tr, (tr, inr a).
Definition throw {E A} (e : E) : M E A := λ tr, (tr, inl e).
Definition bind {E A B} (m : M E A) (k : A → M E B) : M E B :=
  λ tr, match m tr with
        | (tr', inr a) => k a tr'
        | (tr', inl e) => (tr', inl e)
        end.
(** [try { m } catch (error) { handler }] *)
Definition try_catch {E E' A} (m : M E A) (handler : E → M E' A) : M E' A :=
  λ tr, match m tr with
        | (tr', inr a) => (tr', inr a)
        | (tr', inl e) => handler e tr'
        end.
(** A call to a collaborator: it is recorded, then answers. *)
Definition emit {E A} (ev : event) (answer : E + A) : M E A :=
  λ tr, (tr ++ [ev], answer).

#[global] Instance M_ret {E} : MRet (M E) := λ _ a, ret a.
#[global] Instance M_bind {E} : MBind (M E) := λ _ _ k m, bind m k.

(** Running a call from the empty trace. *)
Definition run {E A} (m : M E A) : trace * (E + A) := m [].

(** ** Library functions the client uses *)

(** lodash [uniq(array)]: the values in order of first occurrence.  As in
    lodash's [baseUniq], each value is compared with the results kept so far
    and appended when it is new. *)
Fixpoint baseUniq (array result : list so_type) : list so_type :=
  match array with
  | [] => result
  | value :: rest =>
      if bool_decide (value ∈ result) then baseUniq rest result
      else baseUniq rest (result ++ [value])
  end.
Definition uniq (array : list so_type) : list so_type := baseUniq array [].

(** The order of [Array.prototype.sort] without a comparison function:
    [undefined] goes last, the other elements are compared as strings, code
    unit by code unit.  A character of [string] stands for one code unit. *)
Definition SortCompare_le (x y : so_type) : bool :=
  match x, y with
  | _, None => true
  | None, Some _ => false
  | Some a, Some b => String.leb a b
  end.

Definition types_le (x y : so_type) : Prop := Is_true (SortCompare_le x y).
Definition actions_le (x y : Action) : Prop := Is_true (String.leb x y).

#[global] Instance types_le_dec : RelDecision types_le :=
  λ x y, Is_true_dec (SortCompare_le x y).
#[global] Instance actions_le_dec : RelDecision actions_le :=
  λ x y, Is_true_dec (String.leb x y).

(** [array.sort()] on an array of types and on an array of action names.
    The order is total and antisymmetric, so the sorted array does not depend
    on the sorting algorithm. *)
Definition sort_types (array : list so_type) : list so_type :=
  merge_sort types_le array.
Definition sort_actions (array : list Action) : list Action :=
  merge_sort actions_le array.

(** [array.join(',')]: [undefined] elements are rendered as the empty
    string. *)
Definition join_types (array : list so_type) : string :=
  String.concat "," (map (default "") array).
Definition join_actions (array : list Action) : string :=
  String.concat "," array.

(** lodash [get(error, 'body.error', {})]: the default is returned when the
    path resolves to [undefined], and only then: a [null] at the end of the
    path is returned as it is. *)
Definition get_body_error (e : Error) (default : or_null error_detail)
  : or_null error_detail :=
  match body e with
  | Some b => match error b with
              | Some d => d
              | None => default
              end
  | None => default
  end.

(** [const { reason } = v]: reading a property of [null] throws. *)
Definition destructure_reason (v : or_null error_detail)
  : M thrown (option string) :=
  match v with
  | JNull => throw TypeError
  | JObject d => ret (reason d)
  end.

(** A parameter with a default value: [x = d] in a parameter list. *)
Definition or_default {A} (d : A) (x : option A) : A :=
  match x with Some a => a | None => d end.

(** ** The client *)

Section Client.

(** What a repository method resolves to; opaque to the client. *)
Context {value : Type}.

(** A repository: which of the two it is, and how the store behind it
    answers each method call (it resolves to a value or throws). *)
Record repository := {
  role : repository_role;
  answer : method_call → thrown + value
}.

(** [repository.method(arguments)] *)
Definition invoke (repo : repository) (c : method_call) : M thrown value :=
  emit (Invoked (role repo) c) (answer repo c).

(** The options of the constructor.  [errors] and [auditLogger] are the
    constructors of [thrown] and the audit events of the trace: the audit
    logger returns nothing and does not throw.  [getSavedObjectAction] is
    [actions.getSavedObjectAction], a pure function of the type and the
    operation kind; the checker and the repositories resolve or throw. *)
Record SecureSavedObjectsClient := {
  internalRepository : method_call → thrown + value;
  callWithRequestRepository : method_call → thrown + value;
  checkPrivileges : list Action → Error + check_result;
  getSavedObjectAction : so_type → string → Action
}.

Definition _internalRepository (this : SecureSavedObjectsClient) : repository :=
  {| role := Internal; answer := internalRepository this |}.
Definition _callWithRequestRepository (this : SecureSavedObjectsClient) : repository :=
  {| role := CallWithRequest; answer := callWithRequestRepository this |}.
Definition _checkPrivileges (this : SecureSavedObjectsClient)
    (actions : list Action) : M Error check_result :=
  emit (CheckPrivileges actions) (checkPrivileges this actions).
Definition _auditLogger (ev : event) : M thrown unit := emit ev (inr tt).

Definition _checkSavedObjectPrivileges (this : SecureSavedObjectsClient)
    (actions : list Action) : M thrown check_result :=
  try_catch (_checkPrivileges this actions)
    (λ error,
       reason ← destructure_reason
                  (get_body_error error (JObject {| reason := None |}));
       throw (decorateGeneralError error reason)).

(** The message of the Forbidden error. *)
Definition forbidden_message (action : string) (types : list so_type)
    (missing : list Action) : string :=
  "Unable to " +:+ action +:+ " " +:+ join_types (sort_types types)
    +:+ ", missing " +:+ join_actions (sort_actions missing).

Definition normalize (t : typeOrTypes) : list so_type :=
  match t with
  | TypeArray types => types
  | OneType type => [type]
  end.

Definition _execute (this : SecureSavedObjectsClient) (t : typeOrTypes)
    (action : string) (a : args) (fn : repository → M thrown value)
  : M thrown value :=
  let types := normalize t in
  let actions := map (λ type, getSavedObjectAction this type action) types in
  r ← _checkSavedObjectPrivileges this actions;
  match result r with
  | AUTHORIZED =>
      _auditLogger (savedObjectsAuthorizationSuccess (username r) action types a);;
      fn (_internalRepository this)
  | LEGACY =>
      fn (_callWithRequestRepository this)
  | UNAUTHORIZED =>
      _auditLogger
        (savedObjectsAuthorizationFailure (username r) action types (missing r) a);;
      let msg := forbidden_message action types (missing r) in
      throw (decorateForbiddenError (new_Error msg))
  | Unrecognized _ =>
      throw (Raw (new_Error "Unexpected result from hasPrivileges"))
  end.

Definition create (this : SecureSavedObjectsClient) (type : so_type)
    (attributes : option jsobject) (options : option jsoptions)
  : M thrown value :=
  let attributes := or_default ∅ attributes in
  let options := or_default ∅ options in
  _execute this (OneType type) "create"
    {| args_type := Some type; args_id := None;
       args_attributes := Some attributes; args_objects := None;
       args_options := Some options |}
    (λ repository, invoke repository (Create type attributes options)).

Definition bulkCreate (this : SecureSavedObjectsClient) (objects : list jsobject)
    (options : option jsoptions) : M thrown value :=
  let options := or_default ∅ options in
  let types := uniq (map (λ o : jsobject, o !! "type") objects) in
  _execute this (TypeArray types) "bulk_create"
    {| args_type := None; args_id := None; args_attributes := None;
       args_objects := Some objects; args_options := Some options |}
    (λ repository, invoke repository (BulkCreate objects options)).

Definition delete (this : SecureSavedObjectsClient) (type : so_type) (id : string)
    (options : option jsoptions) : M thrown value :=
  let options := or_default ∅ options in
  _execute this (OneType type) "delete"
    {| args_type := Some type; args_id := Some id; args_attributes := None;
       args_objects := None; args_options := Some options |}
    (λ repository, invoke repository (Delete type id options)).

Definition find (this : SecureSavedObjectsClient) (options : option jsoptions)
  : M thrown value :=
  let options := or_default ∅ options in
  _execute this (as_typeOrTypes (options !! "type")) "find"
    {| args_type := None; args_id := None; args_attributes := None;
       args_objects := None; args_options := Some options |}
    (λ repository, invoke repository (Find options)).

Definition bulkGet (this : SecureSavedObjectsClient)
    (objects : option (list jsobject)) (options : option jsoptions)
  : M thrown value :=
  let objects := or_default [] objects in
  let options := or_default ∅ options in
  let types := uniq (map (λ o : jsobject, o !! "type") objects) in
  _execute this (TypeArray types) "bulk_get"
    {| args_type := None; args_id := None; args_attributes := None;
       args_objects := Some objects; args_options := Some options |}
    (λ repository, invoke repository (BulkGet objects options)).

Definition get (this : SecureSavedObjectsClient) (type : so_type) (id : string)
    (options : option jsoptions) : M thrown value :=
  let options := or_default ∅ options in
  _execute this (OneType type) "get"
    {| args_type := Some type; args_id := Some id; args_attributes := None;
       args_objects := None; args_options := Some options |}
    (λ repository, invoke repository (Get type id options)).

Definition update (this : SecureSavedObjectsClient) (type : so_type) (id : string)
    (attributes : jsobject) (options : option jsoptions) : M thrown value :=
  let options := or_default ∅ options in
  _execute this (OneType type) "update"
    {| args_type := Some type; args_id := Some id;
       args_attributes := Some attributes; args_objects := None;
       args_options := Some options |}
    (λ repository, invoke repository (Update type id attributes options)).

End Client.

(** ** The public interface as data

    One constructor per public method, with the arguments as the caller
    passes them ([None] for an argument left out). *)
Inductive public_call :=
| call_create (type : so_type) (attributes : option jsobject)
    (options : option jsoptions)
| call_bulkCreate (objects : list jsobject) (options : option jsoptions)
| call_delete (type : so_type) (id : string) (options : option jsoptions)
| call_find (options : option jsoptions)
| call_bulkGet (objects : option (list jsobject)) (options : option jsoptions)
| call_get (type : so_type) (id : string) (options : option jsoptions)
| call_update (type : so_type) (id : string) (attributes : jsobject)
    (options : option jsoptions).

Section Dispatch.
Context {value : Type}.
Implicit Types (this : @SecureSavedObjectsClient value) (c : public_call).

Definition perform this c : M thrown value :=
  match c with
  | call_create type attributes options => create this type attributes options
  | call_bulkCreate objects options => bulkCreate this objects options
  | call_delete type id options => delete this type id options
  | call_find options => find this options
  | call_bulkGet objects options => bulkGet this objects options
  | call_get type id options => get this type id options
  | call_update type id attributes options =>
      update this type id attributes options
  end.

(** What each method hands to [_execute]: the type(s), the operation kind,
    the audit bundle and the repository method it forwards to. *)
Definition typeOrTypes_of c : typeOrTypes :=
  match c with
  | call_create type _ _ | call_delete type _ _ | call_get type _ _
  | call_update type _ _ _ => OneType type
  | call_find options => as_typeOrTypes (or_default ∅ options !! "type")
  | call_bulkCreate objects _ =>
      TypeArray (uniq (map (λ o : jsobject, o !! "type") objects))
  | call_bulkGet objects _ =>
      TypeArray (uniq (map (λ o : jsobject, o !! "type") (or_default [] objects)))
  end.

Definition types_of c : list so_type := normalize (typeOrTypes_of c).

Definition action_of c : string :=
  match c with
  | call_create _ _ _ => "create"
  | call_bulkCreate _ _ => "bulk_create"
  | call_delete _ _ _ => "delete"
  | call_find _ => "find"
  | call_bulkGet _ _ => "bulk_get"
  | call_get _ _ _ => "get"
  | call_update _ _ _ _ => "update"
  end.

Definition actions_of this c : list Action :=
  map (λ type, getSavedObjectAction this type (action_of c)) (types_of c).

Definition method_of c : method_call :=
  match c with
  | call_create type attributes options =>
      Create type (or_default ∅ attributes) (or_default ∅ options)
  | call_bulkCreate objects options => BulkCreate objects (or_default ∅ options)
  | call_delete type id options => Delete type id (or_default ∅ options)
  | call_find options => Find (or_default ∅ options)
  | call_bulkGet objects options =>
      BulkGet (or_default [] objects) (or_default ∅ options)
  | call_get type id options => Get type id (or_default ∅ options)
  | call_update type id attributes options =>
      Update type id attributes (or_default ∅ options)
  end.

Definition args_of c : args :=
  match c with
  | call_create type attributes options =>
      {| args_type := Some type; args_id := None;
         args_attributes := Some (or_default ∅ attributes);
         args_objects := None; args_options := Some (or_default ∅ options) |}
  | call_bulkCreate objects options =>
      {| args_type := None; args_id := None; args_attributes := None;
         args_objects := Some objects;
         args_options := Some (or_default ∅ options) |}
  | call_delete type id options | call_get type id options =>
      {| args_type := Some type; args_id := Some id; args_attributes := None;
         args_objects := None; args_options := Some (or_default ∅ options) |}
  | call_find options =>
      {| args_type := None; args_id := None; args_attributes := None;
         args_objects := None; args_options := Some (or_default ∅ options) |}
  | call_bulkGet objects options =>
      {| args_type := None; args_id := None; args_attributes := None;
         args_objects := Some (or_default [] objects);
         args_options := Some (or_default ∅ options) |}
  | call_update type id attributes options =>
      {| args_type := Some type; args_id := Some id;
         args_attributes := Some attributes; args_objects := None;
         args_options := Some (or_default ∅ options) |}
  end.

End Dispatch.

(** ** Reading a trace *)

Definition is_check (ev : event) : bool :=
  match ev with CheckPrivileges _ => true | _ => false end.
Definition is_audit_success (ev : event) : bool :=
  match ev with savedObjectsAuthorizationSuccess _ _ _ _ => true | _ => false end.
Definition is_audit_failure (ev : event) : bool :=
  match ev with savedObjectsAuthorizationFailure _ _ _ _ _ => true | _ => false end.
Definition is_audit (ev : event) : bool :=
  is_audit_success ev || is_audit_failure ev.
Definition is_invoked (r : repository_role) (ev : event) : bool :=
  match ev, r with
  | Invoked Internal _, Internal
  | Invoked CallWithRequest _, CallWithRequest => true
  | _, _ => false
  end.
Definition is_delegate (ev : event) : bool :=
  match ev with Invoked _ _ => true | _ => false end.

(** How many entries of the trace satisfy [p]. *)
Fixpoint count (p : event → bool) (tr : trace) : nat :=
  match tr with
  | [] => 0
  | ev :: tr' => (if p ev then 1 else 0) + count p tr'
  end.

(** Every entry satisfying [q] comes after an entry satisfying [p]. *)
Definition preceded_by (p q : event → bool) (tr : trace) : Prop :=
  ∀ j ev, tr !! j = Some ev → q ev = true →
    ∃ i ev', i < j ∧ tr !! i = Some ev' ∧ p ev' = true.

(** The [reason] property at the end of the path [body.error.reason], when
    every step of the path is there. *)
Definition nested_reason (e : Error) : option string :=
  b ← body e; d ← error b;
  match d with JObject d' => reason d' | JNull => None end.

(** The error holds [null] at [body.error]. *)
Definition null_detail (e : Error) : Prop :=
  ∃ b, body e = Some b ∧ error b = Some JNull.

(** The position of the first occurrence of [x] in [l]. *)
Fixpoint first_index (x : so_type) (l : list so_type) : option nat :=
  match l with
  | [] => None
  | y :: l' => if bool_decide (x = y) then Some 0 else S <$> first_index x l'
  end.

(** ** The types of a call, as the table of operations words them

    [types] are the distinct types of [input], in the order in which they
    first occur. *)
Definition distinct_types_of (input types : list so_type) : Prop :=
  NoDup types
  ∧ (∀ t, t ∈ types ↔ t ∈ input)
  ∧ (∀ i j x y, types !! i = Some x → types !! j = Some y → i < j →
       ∃ p q, first_index x input = Some p ∧ first_index y input = Some q
              ∧ p < q).

(** The types a call is about: the one type of [create], [delete], [get]
    and [update]; for [find], the one type of its filter, [undefined] when it
    has none, or the types of the array given as filter, as they are; for the
    bulk operations, the distinct types of the objects. *)
Inductive types_of_call : public_call → list so_type → Prop :=
| types_create type attributes options :
    types_of_call (call_create type attributes options) [type]
| types_delete type id options :
    types_of_call (call_delete type id options) [type]
| types_get type id options :
    types_of_call (call_get type id options) [type]
| types_update type id attributes options :
    types_of_call (call_update type id attributes options) [type]
| types_find_unfiltered options :
    or_default ∅ options !! "type" = None →
    types_of_call (call_find options) [None]
| types_find_one options s :
    or_default ∅ options !! "type" = Some (OString s) →
    types_of_call (call_find options) [Some s]
| types_find_array options types :
    or_default ∅ options !! "type" = Some (OArray types) →
    types_of_call (call_find options) types
| types_bulkCreate objects options types :
    distinct_types_of (map (λ o : jsobject, o !! "type") objects) types →
    types_of_call (call_bulkCreate objects options) types
| types_bulkGet objects options types :
    distinct_types_of
      (map (λ o : jsobject, o !! "type") (or_default [] objects)) types →
    types_of_call (call_bulkGet objects options) types.

(** ** The check-branch-audit-dispatch sequence, as the specification words it

    Steps 3 and 4 of the core algorithm, for a call with operation kind
    [action], types [types], action set [actions], audit bundle [a] and
    repository method [c]: the checker is asked once; then, by its outcome,
    the call is audited and forwarded to the privileged repository, forwarded
    to the legacy repository without audit, audited and refused, or failed.
    To the cases of the specification the relation adds the one the code
    has besides: a checker error holding [null] at [body.error] ends the call
    with the language's own error.
    The relation holds of the trace and the outcome such a call leaves. *)
Inductive check_branch_audit_dispatch {value : Type}
    (this : @SecureSavedObjectsClient value) (action : string)
    (types : list so_type) (actions : list Action) (a : args) (c : method_call)
  : trace * (thrown + value) → Prop :=
| checker_throws err :
    checkPrivileges this actions = inl err → ¬ null_detail err →
    check_branch_audit_dispatch this action types actions a c
      ([CheckPrivileges actions],
       inl (decorateGeneralError err (nested_reason err)))
| checker_throws_null_detail err :
    checkPrivileges this actions = inl err → null_detail err →
    check_branch_audit_dispatch this action types actions a c
      ([CheckPrivileges actions], inl TypeError)
| outcome_authorized r :
    checkPrivileges this actions = inr r → result r = AUTHORIZED →
    check_branch_audit_dispatch this action types actions a c
      ([CheckPrivileges actions;
        savedObjectsAuthorizationSuccess (username r) action types a;
        Invoked Internal c],
       internalRepository this c)
| outcome_legacy r :
    checkPrivileges this actions = inr r → result r = LEGACY →
    check_branch_audit_dispatch this action types actions a c
      ([CheckPrivileges actions; Invoked CallWithRequest c],
       callWithRequestRepository this c)
| outcome_unauthorized r :
    checkPrivileges this actions = inr r → result r = UNAUTHORIZED →
    check_branch_audit_dispatch this action types actions a c
      ([CheckPrivileges actions;
        savedObjectsAuthorizationFailure (username r) action types (missing r) a],
       inl (decorateForbiddenError (new_Error
         ("Unable to " +:+ action +:+ " " +:+ join_types (sort_types types)
            +:+ ", missing " +:+ join_actions (sort_actions (missing r))))))
| outcome_unexpected r tag :
    checkPrivileges this actions = inr r → result r = Unrecognized tag →
    check_branch_audit_dispatch this action types actions a c
      ([CheckPrivileges actions],
       inl (Raw (new_Error "Unexpected result from hasPrivileges"))).

(** ** Sample collaborators

    A registry that names the action after the type and the operation, stores
    that answer with a fixed string, and checkers with a fixed outcome. *)
Definition sample_registry (type : so_type) (action : string) : Action :=
  "action:saved_objects/" +:+ default "undefined" type +:+ "/" +:+ action.

Definition sample_client (outcome : Error + check_result)
  : @SecureSavedObjectsClient string :=
  {| internalRepository := λ _, inr "from the internal repository";
     callWithRequestRepository := λ _, inl (Raw (new_Error "Not Found"));
     checkPrivileges := λ _, outcome;
     getSavedObjectAction := sample_registry |}.

Definition sample_result (r : CHECK_PRIVILEGES_RESULT) : Error + check_result :=
  inr {| result := r; username := "alice"; missing := ["act:y"; "act:x"] |}.

Definition sample_error : Error :=
  {| message := "security_exception";
     body := Some {| error := Some (JObject {| reason := Some "r" |}) |} |}.

(** An error whose body holds [null] at [error]. *)
Definition sample_null_error : Error :=
  {| message := "security_exception"; body := Some {| error := Some JNull |} |}.

(** Options of [find] whose [type] filter names the same type twice. *)
Definition sample_repeated_filter : jsoptions :=
  {["type" := OArray [Some "a"; Some "a"]]}.

Definition sample_objects : list jsobject :=
  [ {["type" := "b"]}; {["type" := "a"]}; {["type" := "b"]} ].

(** A collection whose objects all have the type ["dashboard"]. *)
Definition sample_dashboards : list jsobject :=
  [ {["type" := "dashboard"]}; {["type" := "dashboard"]} ].

(** Goals about the position of an entry in a trace of a few entries are
    closed by looking at each position in turn. *)
Ltac by_position j Hj Hq :=
  repeat (destruct j as [|j]; simpl in Hj; try discriminate Hj;
          try (injection Hj as <-; simpl in Hq; try discriminate Hq)).

(** * Properties *)

(** ** The order of [sort] *)

Lemma String_compare_as_OT (a b : string) :
  String.compare a b = OrdersEx.String_as_OT.compare a b.
Proof.
  reflexivity.
Qed.

Lemma String_leb_spec (a b : string) :
  String.leb a b = true ↔ OrdersEx.String_as_OT.lt a b ∨ a = b.
Proof.
  unfold String.leb, OrdersEx.String_as_OT.lt.
  rewrite String_compare_as_OT.
  destruct (OrdersEx.String_as_OT.compare_spec a b) as [Heq|Hlt|Hgt].
  - split; [right; exact Heq | reflexivity].
  - split; [left; reflexivity | reflexivity].
  - split; [discriminate | intros [H| ->]; [discriminate|]].
    exfalso. eapply (irreflexivity OrdersEx.String_as_OT.lt). exact Hgt.
Qed.

Lemma String_leb_trans (a b c : string) :
  String.leb a b = true → String.leb b c = true → String.leb a c = true.
Proof.
  rewrite !String_leb_spec. intros [H1| ->] [H2| ->]; auto.
  left. etransitivity; eassumption.
Qed.

#[global] Instance actions_le_total : Total actions_le.
Proof.
  intros a b. unfold actions_le.
  destruct (String.leb_total a b) as [H|H]; rewrite H; [left|right]; exact I.
Qed.

#[global] Instance actions_le_trans : Transitive actions_le.
Proof.
  intros a b c. unfold actions_le. rewrite !Is_true_true.
  apply String_leb_trans.
Qed.

#[global] Instance actions_le_antisymm : AntiSymm (=) actions_le.
Proof.
  intros a b. unfold actions_le. rewrite !Is_true_true.
  apply String.leb_antisym.
Qed.

#[global] Instance types_le_total : Total types_le.
Proof.
  intros [a|] [b|]; unfold types_le; simpl; auto.
  apply (total actions_le).
Qed.

#[global] Instance types_le_trans : Transitive types_le.
Proof.
  intros [a|] [b|] [c|]; unfold types_le; simpl; auto; try contradiction.
  apply (transitivity (R:=actions_le)).
Qed.

#[global] Instance types_le_antisymm : AntiSymm (=) types_le.
Proof.
  intros [a|] [b|]; unfold types_le; simpl; try contradiction; auto.
  intros H1 H2. f_equal. exact (anti_symm actions_le a b H1 H2).
Qed.

(** [sort] gives the one sorted arrangement of its argument. *)
Lemma sort_types_sorted (l : list so_type) : Sorted types_le (sort_types l).
Proof. apply Sorted_merge_sort; apply _. Qed.

Lemma sort_types_perm (l : list so_type) : sort_types l ≡ₚ l.
Proof. apply merge_sort_Permutation. Qed.

Lemma sort_actions_sorted (l : list Action) : Sorted actions_le (sort_actions l).
Proof. apply Sorted_merge_sort; apply _. Qed.

Lemma sort_actions_perm (l : list Action) : sort_actions l ≡ₚ l.
Proof. apply merge_sort_Permutation. Qed.

Lemma sort_types_order_irrelevant (l1 l2 : list so_type) :
  l1 ≡ₚ l2 → sort_types l1 = sort_types l2.
Proof.
  intros H. apply (Sorted_unique types_le); try apply sort_types_sorted.
  rewrite !sort_types_perm. exact H.
Qed.

Lemma sort_actions_order_irrelevant (l1 l2 : list Action) :
  l1 ≡ₚ l2 → sort_actions l1 = sort_actions l2.
Proof.
  intros H. apply (Sorted_unique actions_le); try apply sort_actions_sorted.
  rewrite !sort_actions_perm. exact H.
Qed.

(** ** [uniq] *)

Lemma baseUniq_app (l1 l2 result : list so_type) :
  baseUniq (l1 ++ l2) result = baseUniq l2 (baseUniq l1 result).
Proof.
  revert result. induction l1 as [|x l1 IH]; intros result; simpl.
  - reflexivity.
  - case_bool_decide; apply IH.
Qed.

Lemma baseUniq_elem (x : so_type) (array result : list so_type) :
  x ∈ baseUniq array result ↔ x ∈ result ∨ x ∈ array.
Proof.
  revert result. induction array as [|y array IH]; intros result; simpl.
  - rewrite elem_of_nil. tauto.
  - case_bool_decide as Hy; rewrite IH, elem_of_cons.
    + split; [tauto|]. intros [H|[->|H]]; auto.
    + rewrite elem_of_app, list_elem_of_singleton. tauto.
Qed.

Lemma baseUniq_NoDup (array result : list so_type) :
  NoDup result → NoDup (baseUniq array result).
Proof.
  revert result. induction array as [|y array IH]; intros result Hnd; simpl.
  - exact Hnd.
  - case_bool_decide as Hy; apply IH; [exact Hnd|].
    apply NoDup_app. split; [exact Hnd|]. split.
    + intros z Hz Hz'. apply list_elem_of_singleton in Hz'. subst. auto.
    + apply NoDup_singleton.
Qed.

Lemma uniq_elem (x : so_type) (l : list so_type) : x ∈ uniq l ↔ x ∈ l.
Proof.
  unfold uniq. rewrite baseUniq_elem, elem_of_nil. tauto.
Qed.

Lemma uniq_NoDup (l : list so_type) : NoDup (uniq l).
Proof. apply baseUniq_NoDup, NoDup_nil_2. Qed.

Lemma uniq_snoc (l : list so_type) (x : so_type) :
  uniq (l ++ [x]) = if bool_decide (x ∈ l) then uniq l else uniq l ++ [x].
Proof.
  unfold uniq. rewrite baseUniq_app. simpl.
  pose proof (uniq_elem x l) as H. unfold uniq in H.
  repeat case_bool_decide; tauto.
Qed.

Lemma first_index_lt (x : so_type) (l : list so_type) (p : nat) :
  first_index x l = Some p → p < length l.
Proof.
  revert p. induction l as [|y l IH]; intros p; simpl; [discriminate|].
  case_bool_decide.
  - intros [= <-]. lia.
  - destruct (first_index x l) as [q|]; [|discriminate].
    intros [= <-]. specialize (IH q eq_refl). lia.
Qed.

Lemma first_index_elem (x : so_type) (l : list so_type) :
  x ∈ l → ∃ p, first_index x l = Some p ∧ l !! p = Some x.
Proof.
  induction l as [|y l IH]; intros Hx; [by apply elem_of_nil in Hx|].
  simpl. case_bool_decide as Hxy.
  - subst. exists 0. split; reflexivity.
  - apply elem_of_cons in Hx as [Hx|Hx]; [contradiction|].
    destruct (IH Hx) as (p & -> & Hp). exists (S p). split; [reflexivity|exact Hp].
Qed.

Lemma first_index_app_l (x : so_type) (l l' : list so_type) :
  x ∈ l → first_index x (l ++ l') = first_index x l.
Proof.
  induction l as [|y l IH]; intros Hx; [by apply elem_of_nil in Hx|].
  simpl. case_bool_decide as Hxy; [reflexivity|].
  apply elem_of_cons in Hx as [Hx|Hx]; [contradiction|].
  rewrite (IH Hx). reflexivity.
Qed.

Lemma first_index_fresh (x : so_type) (l : list so_type) :
  x ∉ l → first_index x (l ++ [x]) = Some (length l).
Proof.
  induction l as [|y l IH]; intros Hx; simpl.
  - rewrite bool_decide_eq_true_2; reflexivity.
  - apply not_elem_of_cons in Hx as [Hxy Hx].
    rewrite bool_decide_eq_false_2 by exact Hxy.
    rewrite (IH Hx). reflexivity.
Qed.

(** [uniq] keeps the values in the order of their first occurrences. *)
Lemma uniq_first_occurrence_order (l : list so_type) (i j : nat) (x y : so_type) :
  uniq l !! i = Some x → uniq l !! j = Some y → i < j →
  ∃ p q, first_index x l = Some p ∧ first_index y l = Some q ∧ p < q.
Proof.
  revert i j x y. induction l as [|z l IH] using rev_ind; intros i j x y.
  - intros H. discriminate H.
  - rewrite uniq_snoc. case_bool_decide as Hz.
    + intros Hi Hj Hij. destruct (IH _ _ _ _ Hi Hj Hij) as (p & q & Hp & Hq & Hpq).
      exists p, q. rewrite !first_index_app_l; [auto| |].
      * apply uniq_elem. eapply list_elem_of_lookup_2. exact Hj.
      * apply uniq_elem. eapply list_elem_of_lookup_2. exact Hi.
    + intros Hi Hj Hij.
      assert (Hx : x ∈ l).
      { apply uniq_elem. apply lookup_lt_Some in Hj as Hlen.
        rewrite length_app in Hlen. simpl in Hlen.
        rewrite lookup_app_l in Hi by lia.
        eapply list_elem_of_lookup_2. exact Hi. }
      destruct (decide (j < length (uniq l))) as [Hlt|Hge].
      * rewrite lookup_app_l in Hi by lia. rewrite lookup_app_l in Hj by lia.
        destruct (IH _ _ _ _ Hi Hj Hij) as (p & q & Hp & Hq & Hpq).
        exists p, q. rewrite !first_index_app_l; [auto| |exact Hx].
        apply uniq_elem. eapply list_elem_of_lookup_2. exact Hj.
      * rewrite lookup_app_r in Hj by lia.
        destruct (j - length (uniq l)) as [|k] eqn:Hk; [|discriminate Hj].
        injection Hj as <-.
        destruct (first_index_elem _ _ Hx) as (p & Hp & _).
        exists p, (length l). rewrite first_index_app_l by exact Hx.
        rewrite first_index_fresh by exact Hz.
        split; [exact Hp|]. split; [reflexivity|].
        eapply first_index_lt. exact Hp.
Qed.

(** ** One call, step by step *)

Section Gateway.
Context {value : Type}.
Implicit Types (this : @SecureSavedObjectsClient value) (c : public_call).

(** Every public method is [_execute] at the data of the call. *)
Lemma perform_execute this c :
  perform this c =
  _execute this (typeOrTypes_of c) (action_of c) (args_of c)
    (λ repository, invoke repository (method_of c)).
Proof. destruct c; reflexivity. Qed.

(** [get] gives [null] exactly for the errors holding [null] at
    [body.error]; otherwise the reason the catch block extracts is the one
    at [body.error.reason]. *)
Lemma get_body_error_null (err : Error) :
  get_body_error err (JObject {| reason := None |}) = JNull ↔ null_detail err.
Proof.
  unfold null_detail, get_body_error.
  destruct err as [m [[[[|d]|]]|]]; simpl.
  - split; [intros _; eexists; split; reflexivity | reflexivity].
  - split; [discriminate | intros (b & [= <-] & Herr); discriminate Herr].
  - split; [discriminate | intros (b & [= <-] & Herr); discriminate Herr].
  - split; [discriminate | intros (b & Hb & _); discriminate Hb].
Qed.

Lemma get_body_error_reason (err : Error) (d : error_detail) :
  get_body_error err (JObject {| reason := None |}) = JObject d →
  reason d = nested_reason err.
Proof.
  destruct err as [m [[[[|d']|]]|]]; unfold get_body_error; simpl;
    intros H; inversion H; subst; reflexivity.
Qed.

(** What a call leaves behind, by the checker's outcome. *)
Lemma run_perform this c :
  run (perform this c) =
  let actions := actions_of this c in
  match checkPrivileges this actions with
  | inl err =>
      ([CheckPrivileges actions],
       match get_body_error err (JObject {| reason := None |}) with
       | JNull => inl TypeError
       | JObject d => inl (decorateGeneralError err (reason d))
       end)
  | inr r =>
      match result r with
      | AUTHORIZED =>
          ([CheckPrivileges actions;
            savedObjectsAuthorizationSuccess (username r) (action_of c)
              (types_of c) (args_of c);
            Invoked Internal (method_of c)],
           internalRepository this (method_of c))
      | LEGACY =>
          ([CheckPrivileges actions; Invoked CallWithRequest (method_of c)],
           callWithRequestRepository this (method_of c))
      | UNAUTHORIZED =>
          ([CheckPrivileges actions;
            savedObjectsAuthorizationFailure (username r) (action_of c)
              (types_of c) (missing r) (args_of c)],
           inl (decorateForbiddenError (new_Error
             (forbidden_message (action_of c) (types_of c) (missing r)))))
      | Unrecognized _ =>
          ([CheckPrivileges actions],
           inl (Raw (new_Error "Unexpected result from hasPrivileges")))
      end
  end.
Proof.
  rewrite perform_execute.
  unfold run, _execute, _checkSavedObjectPrivileges, _checkPrivileges,
    _auditLogger, invoke, try_catch, emit, throw, mbind, M_bind, bind,
    actions_of, types_of.
  simpl.
  destruct (checkPrivileges this _) as [err|r]; simpl.
  - destruct (get_body_error err _); reflexivity.
  - destruct (result r); reflexivity.
Qed.

(** The sequence of the specification describes every call. *)
Lemma perform_check_branch_audit_dispatch this c :
  check_branch_audit_dispatch this (action_of c) (types_of c)
    (actions_of this c) (args_of c) (method_of c) (run (perform this c)).
Proof.
  rewrite run_perform. simpl.
  destruct (checkPrivileges this (actions_of this c)) as [err|r] eqn:Hcheck.
  - destruct (get_body_error err _) as [|d] eqn:Hget.
    + eapply checker_throws_null_detail; [exact Hcheck|].
      apply (proj1 (get_body_error_null err)). exact Hget.
    + rewrite (get_body_error_reason err d Hget).
      eapply checker_throws; [exact Hcheck|].
      intros Hnull. apply (proj2 (get_body_error_null err)) in Hnull.
      rewrite Hget in Hnull. discriminate Hnull.
  - destruct (result r) eqn:Hr.
    + eapply outcome_authorized; eassumption.
    + eapply outcome_legacy; eassumption.
    + eapply outcome_unauthorized; eassumption.
    + eapply outcome_unexpected; eassumption.
Qed.

(** [uniq] gives the distinct types of its argument in the order of their
    first occurrences, and nothing else does. *)
Lemma uniq_distinct_types_of (input : list so_type) :
  distinct_types_of input (uniq input).
Proof.
  split; [apply uniq_NoDup|]. split; [intros t; apply uniq_elem|].
  apply uniq_first_occurrence_order.
Qed.

Lemma first_occurrence_order_sorted (input l : list so_type) :
  (∀ i j x y, l !! i = Some x → l !! j = Some y → i < j →
     ∃ p q, first_index x input = Some p ∧ first_index y input = Some q ∧ p < q) →
  StronglySorted
    (λ x y, ∃ p q, first_index x input = Some p ∧ first_index y input = Some q
                   ∧ p < q) l.
Proof.
  induction l as [|x l IH]; intros Horder; constructor.
  - apply IH. intros i j a b Hi Hj Hij.
    apply (Horder (S i) (S j)); [exact Hi|exact Hj|lia].
  - apply Forall_forall. intros y Hy.
    apply list_elem_of_lookup in Hy as [j Hj].
    apply (Horder 0 (S j)); [reflexivity|exact Hj|lia].
Qed.

Lemma distinct_types_of_unique (input types : list so_type) :
  distinct_types_of input types → types = uniq input.
Proof.
  intros (Hnd & Hin & Horder).
  destruct (uniq_distinct_types_of input) as (Hnd' & Hin' & Horder').
  apply (StronglySorted_unique_strong
           (λ x y, ∃ p q, first_index x input = Some p
                          ∧ first_index y input = Some q ∧ p < q)).
  - intros x y _ _ (p & q & Hp & Hq & Hpq) (q' & p' & Hq' & Hp' & Hqp).
    rewrite Hp in Hp'. rewrite Hq in Hq'. simplify_eq. lia.
  - apply first_occurrence_order_sorted. exact Horder.
  - apply first_occurrence_order_sorted. exact Horder'.
  - apply NoDup_Permutation; [exact Hnd|exact Hnd'|].
    intros x. rewrite Hin, Hin'. reflexivity.
Qed.

(** The types the methods hand to [_execute] are the types of the call as
    the table has them, and the table leaves no choice. *)
Lemma types_of_call_types_of c : types_of_call c (types_of c).
Proof.
  destruct c as [type a o|objects o|type id o|options|objects o|type id o
                |type id a o].
  - apply types_create.
  - apply types_bulkCreate, uniq_distinct_types_of.
  - apply types_delete.
  - unfold types_of. simpl.
    destruct (or_default ∅ options !! "type") as [[s|types]|] eqn:Htype; simpl.
    + apply types_find_one. exact Htype.
    + apply types_find_array. exact Htype.
    + apply types_find_unfiltered. exact Htype.
  - apply types_bulkGet, uniq_distinct_types_of.
  - apply types_get.
  - apply types_update.
Qed.

Lemma types_of_call_unique c (types : list so_type) :
  types_of_call c types → types = types_of c.
Proof.
  intros H. destruct H; try reflexivity;
    try (unfold types_of; simpl; rewrite H; reflexivity);
    apply distinct_types_of_unique; assumption.
Qed.

(** The types of a call are pairwise distinct, unless [find] is given an
    array that repeats a type. *)
Lemma types_of_call_NoDup c (types : list so_type) :
  types_of_call c types →
  (∀ options filter, c = call_find options →
     or_default ∅ options !! "type" = Some (OArray filter) → NoDup filter) →
  NoDup types.
Proof.
  intros H Hfilter. destruct H; try apply NoDup_singleton.
  - eapply Hfilter; [reflexivity|eassumption].
  - destruct H as [Hnd _]. exact Hnd.
  - destruct H as [Hnd _]. exact Hnd.
Qed.

(** The message does not depend on the order of the types, nor on the order
    of the missing actions. *)
Lemma forbidden_message_order_irrelevant (action : string)
    (types types' : list so_type) (missing missing' : list Action) :
  types ≡ₚ types' → missing ≡ₚ missing' →
  forbidden_message action types missing = forbidden_message action types' missing'.
Proof.
  intros Ht Hm. unfold forbidden_message.
  rewrite (sort_types_order_irrelevant _ _ Ht).
  rewrite (sort_actions_order_irrelevant _ _ Hm). reflexivity.
Qed.

End Gateway.

(** ** The outcomes of the privilege check *)

(** C1, as the specification states it, has the types of the message
    distinct for every operation.  [find] hands the array it is given as
    type filter to [_execute] as it is: with a filter naming a type twice,
    the refused call names that type twice. *)
Lemma find_with_repeated_filter_names_type_twice :
  let this := sample_client (sample_result UNAUTHORIZED) in
  let c := call_find (Some sample_repeated_filter) in
  fst (run (perform this c)) =
    [CheckPrivileges ["action:saved_objects/a/find"; "action:saved_objects/a/find"];
     savedObjectsAuthorizationFailure "alice" "find" [Some "a"; Some "a"]
       ["act:y"; "act:x"] (args_of c)]
  ∧ snd (run (perform this c)) =
      inl (decorateForbiddenError
             (new_Error "Unable to find a,a, missing act:x,act:y"))
  ∧ ¬ NoDup [Some "a"; Some "a"].
Proof.
  split; [vm_compute; reflexivity|]. split; [vm_compute; reflexivity|].
  intros H. apply NoDup_cons in H as [H _]. apply H. left.
Qed.

(** C1, amended. For each of the seven public operations, when the privilege
    checker answers UNAUTHORIZED: no repository (privileged or legacy) is
    invoked, exactly one audit-failure event is recorded, and the call fails
    with the Forbidden error whose message is
    [Unable to <operation kind> <types>, missing <missing actions>], the
    types of the call and the missing actions each sorted lexicographically
    and joined with commas, whatever their original order.  The types are
    the one type of a single-type call, the distinct types of the objects of
    a bulk call, or the array given to [find] as its type filter; they are
    pairwise distinct unless that array repeats a type. *)
Theorem unauthorized_is_forbidden {value : Type}
    (this : @SecureSavedObjectsClient value) (c : public_call)
    (types : list so_type) (r : check_result) :
  types_of_call c types →
  checkPrivileges this
    (map (λ type, getSavedObjectAction this type (action_of c)) types) = inr r →
  result r = UNAUTHORIZED →
  fst (run (perform this c)) =
    [CheckPrivileges
       (map (λ type, getSavedObjectAction this type (action_of c)) types);
     savedObjectsAuthorizationFailure (username r) (action_of c) types
       (missing r) (args_of c)]
  ∧ count (is_invoked Internal) (fst (run (perform this c))) = 0
  ∧ count (is_invoked CallWithRequest) (fst (run (perform this c))) = 0
  ∧ count is_audit_failure (fst (run (perform this c))) = 1
  ∧ count is_audit_success (fst (run (perform this c))) = 0
  ∧ snd (run (perform this c)) =
      inl (decorateForbiddenError (new_Error
        ("Unable to " +:+ action_of c +:+ " "
           +:+ join_types (sort_types types)
           +:+ ", missing " +:+ join_actions (sort_actions (missing r)))))
  ∧ ((∀ options filter, c = call_find options →
        or_default ∅ options !! "type" = Some (OArray filter) → NoDup filter) →
     NoDup types)
  ∧ Sorted types_le (sort_types types)
  ∧ sort_types types ≡ₚ types
  ∧ Sorted actions_le (sort_actions (missing r))
  ∧ sort_actions (missing r) ≡ₚ missing r
  ∧ ∀ types' missing', types' ≡ₚ types → missing' ≡ₚ missing r →
      forbidden_message (action_of c) types' missing' =
      forbidden_message (action_of c) types (missing r).
Proof.
  intros Htypes Hcheck Hr.
  pose proof (types_of_call_unique c types Htypes) as Heq.
  assert (Hcheck' : checkPrivileges this (actions_of this c) = inr r)
    by (unfold actions_of; rewrite <- Heq; exact Hcheck).
  rewrite run_perform. simpl. rewrite Hcheck', Hr. simpl.
  unfold actions_of. rewrite <- Heq.
  repeat split.
  - apply types_of_call_NoDup. exact Htypes.
  - apply sort_types_sorted.
  - apply sort_types_perm.
  - apply sort_actions_sorted.
  - apply sort_actions_perm.
  - intros types' missing' Ht Hm.
    apply forbidden_message_order_irrelevant; assumption.
Qed.

Lemma unauthorized_is_forbidden_witness :
  let this := sample_client (sample_result UNAUTHORIZED) in
  let c := call_get (Some "dashboard") "7" None in
  let types := [Some "dashboard"] in
  let r := {| result := UNAUTHORIZED; username := "alice";
              missing := ["act:y"; "act:x"] |} in
  (types_of_call c types
   ∧ checkPrivileges this
       (map (λ type, getSavedObjectAction this type (action_of c)) types) = inr r
   ∧ result r = UNAUTHORIZED)
  ∧ snd (run (perform this c)) =
      inl (decorateForbiddenError
             (new_Error "Unable to get dashboard, missing act:x,act:y")).
Proof.
  intros this c types r.
  assert (H0 : types_of_call c types) by apply types_get.
  assert (H1 : checkPrivileges this
                 (map (λ type, getSavedObjectAction this type (action_of c)) types)
               = inr r) by reflexivity.
  assert (H2 : result r = UNAUTHORIZED) by reflexivity.
  split; [repeat split; assumption|].
  pose proof (unauthorized_is_forbidden this c types r H0 H1 H2)
    as (_ & _ & _ & _ & _ & Hres & _).
  rewrite Hres. vm_compute. reflexivity.
Defined.

(** The message of the specification's example: types [b, a] and missing
    actions [act:y, act:x]. *)
Example forbidden_message_example :
  snd (run (perform (sample_client (sample_result UNAUTHORIZED))
              (call_bulkGet (Some sample_objects) None))) =
  inl (decorateForbiddenError
         (new_Error "Unable to bulk_get a,b, missing act:x,act:y")).
Proof. vm_compute. reflexivity. Qed.

(** C2. For each public operation, when the privilege checker answers
    AUTHORIZED: exactly one audit-success event is recorded, it is recorded
    before the privileged (internal) repository is invoked, what the
    privileged repository answers is the outcome of the call as it is, and
    the legacy repository is never invoked. *)
Theorem authorized_audits_then_delegates {value : Type}
    (this : @SecureSavedObjectsClient value) (c : public_call) (r : check_result) :
  checkPrivileges this (actions_of this c) = inr r →
  result r = AUTHORIZED →
  fst (run (perform this c)) =
    [CheckPrivileges (actions_of this c);
     savedObjectsAuthorizationSuccess (username r) (action_of c) (types_of c)
       (args_of c);
     Invoked Internal (method_of c)]
  ∧ count is_audit_success (fst (run (perform this c))) = 1
  ∧ count is_audit_failure (fst (run (perform this c))) = 0
  ∧ count (is_invoked Internal) (fst (run (perform this c))) = 1
  ∧ preceded_by is_audit_success (is_invoked Internal) (fst (run (perform this c)))
  ∧ snd (run (perform this c)) = internalRepository this (method_of c)
  ∧ count (is_invoked CallWithRequest) (fst (run (perform this c))) = 0.
Proof.
  intros Hcheck Hr. rewrite run_perform. simpl. rewrite Hcheck, Hr. simpl.
  repeat split.
  intros j ev Hj Hq. by_position j Hj Hq.
  exists 1. eexists. repeat split. lia.
Qed.

Lemma authorized_audits_then_delegates_witness :
  let this := sample_client (sample_result AUTHORIZED) in
  let c := call_get (Some "dashboard") "7" None in
  let r := {| result := AUTHORIZED; username := "alice";
              missing := ["act:y"; "act:x"] |} in
  (checkPrivileges this (actions_of this c) = inr r ∧ result r = AUTHORIZED)
  ∧ preceded_by is_audit_success (is_invoked Internal) (fst (run (perform this c)))
  ∧ snd (run (perform this c)) = inr "from the internal repository".
Proof.
  intros this c r.
  assert (H1 : checkPrivileges this (actions_of this c) = inr r) by reflexivity.
  assert (H2 : result r = AUTHORIZED) by reflexivity.
  split; [split; assumption|].
  pose proof (authorized_audits_then_delegates this c r H1 H2)
    as (_ & _ & _ & _ & Hbefore & Hres & _).
  split; [exact Hbefore|exact Hres].
Defined.

(** C3. For each public operation, when the privilege checker answers LEGACY:
    the legacy (request-scoped) repository is invoked and what it answers is
    the outcome of the call as it is, the privileged repository is never
    invoked, and no audit event, of success or of failure, is recorded. *)
Theorem legacy_delegates_without_audit {value : Type}
    (this : @SecureSavedObjectsClient value) (c : public_call) (r : check_result) :
  checkPrivileges this (actions_of this c) = inr r →
  result r = LEGACY →
  fst (run (perform this c)) =
    [CheckPrivileges (actions_of this c); Invoked CallWithRequest (method_of c)]
  ∧ count (is_invoked CallWithRequest) (fst (run (perform this c))) = 1
  ∧ snd (run (perform this c)) = callWithRequestRepository this (method_of c)
  ∧ count (is_invoked Internal) (fst (run (perform this c))) = 0
  ∧ count is_audit_success (fst (run (perform this c))) = 0
  ∧ count is_audit_failure (fst (run (perform this c))) = 0.
Proof.
  intros Hcheck Hr. rewrite run_perform. simpl. rewrite Hcheck, Hr. simpl.
  repeat split.
Qed.

Lemma legacy_delegates_without_audit_witness :
  let this := sample_client (sample_result LEGACY) in
  let c := call_delete (Some "dashboard") "7" None in
  let r := {| result := LEGACY; username := "alice";
              missing := ["act:y"; "act:x"] |} in
  (checkPrivileges this (actions_of this c) = inr r ∧ result r = LEGACY)
  ∧ count is_audit (fst (run (perform this c))) = 0
  ∧ snd (run (perform this c)) = inl (Raw (new_Error "Not Found")).
Proof.
  intros this c r.
  assert (H1 : checkPrivileges this (actions_of this c) = inr r) by reflexivity.
  assert (H2 : result r = LEGACY) by reflexivity.
  split; [split; assumption|].
  pose proof (legacy_delegates_without_audit this c r H1 H2)
    as (Htr & _ & Hres & _).
  split; [rewrite Htr; reflexivity|exact Hres].
Defined.

(** C4. For each public operation, when the [result] the privilege checker
    answers is none of AUTHORIZED, LEGACY and UNAUTHORIZED: the call fails
    with the plain internal error "Unexpected result from hasPrivileges", and
    neither the privileged nor the legacy repository is invoked. *)
Theorem unrecognized_result_fails {value : Type}
    (this : @SecureSavedObjectsClient value) (c : public_call) (r : check_result) :
  checkPrivileges this (actions_of this c) = inr r →
  result r ≠ AUTHORIZED → result r ≠ LEGACY → result r ≠ UNAUTHORIZED →
  snd (run (perform this c)) =
    inl (Raw (new_Error "Unexpected result from hasPrivileges"))
  ∧ fst (run (perform this c)) = [CheckPrivileges (actions_of this c)]
  ∧ count (is_invoked Internal) (fst (run (perform this c))) = 0
  ∧ count (is_invoked CallWithRequest) (fst (run (perform this c))) = 0.
Proof.
  intros Hcheck Ha Hl Hu. rewrite run_perform. simpl. rewrite Hcheck.
  destruct (result r); try contradiction. simpl. repeat split.
Qed.

Lemma unrecognized_result_fails_witness :
  let this := sample_client (sample_result (Unrecognized "maybe")) in
  let c := call_update (Some "dashboard") "7" ∅ None in
  let r := {| result := Unrecognized "maybe"; username := "alice";
              missing := ["act:y"; "act:x"] |} in
  (checkPrivileges this (actions_of this c) = inr r
   ∧ result r ≠ AUTHORIZED ∧ result r ≠ LEGACY ∧ result r ≠ UNAUTHORIZED)
  ∧ snd (run (perform this c)) =
      inl (Raw (new_Error "Unexpected result from hasPrivileges"))
  ∧ fst (run (perform this c)) = [CheckPrivileges (actions_of this c)].
Proof.
  intros this c r.
  assert (H1 : checkPrivileges this (actions_of this c) = inr r) by reflexivity.
  assert (H2 : result r ≠ AUTHORIZED) by discriminate.
  assert (H3 : result r ≠ LEGACY) by discriminate.
  assert (H4 : result r ≠ UNAUTHORIZED) by discriminate.
  split; [repeat split; assumption|].
  pose proof (unrecognized_result_fails this c r H1 H2 H3 H4) as (Hres & Htr & _).
  split; [exact Hres|exact Htr].
Defined.

(** When the privilege checker throws an error that does not hold [null] at
    [body.error], the call fails with the Decorated-General error around
    that error; its reason is the string found at [body.error.reason] when
    the path is there, and undefined when it is not; no audit event is
    recorded and no repository is invoked. *)
Lemma checker_failure_decorated_unless_null {value : Type}
    (this : @SecureSavedObjectsClient value) (c : public_call) (err : Error) :
  checkPrivileges this (actions_of this c) = inl err →
  ¬ null_detail err →
  snd (run (perform this c)) = inl (decorateGeneralError err (nested_reason err))
  ∧ snd (run (perform this c)) ≠ inl (Raw err)
  ∧ fst (run (perform this c)) = [CheckPrivileges (actions_of this c)].
Proof.
  intros Hcheck Hnull. rewrite run_perform. simpl. rewrite Hcheck. simpl.
  destruct (get_body_error err _) as [|d] eqn:Hget.
  - exfalso. apply Hnull, get_body_error_null. exact Hget.
  - rewrite (get_body_error_reason err d Hget).
    split; [reflexivity|]. split; [discriminate|reflexivity].
Qed.

(** Whatever the operation, a checker error holding [null] at [body.error]
    is not decorated: reading [reason] off [null] throws inside the catch
    block, and that is what the call fails with. *)
Lemma checker_failure_with_null_detail {value : Type}
    (this : @SecureSavedObjectsClient value) (c : public_call) (err : Error) :
  checkPrivileges this (actions_of this c) = inl err →
  null_detail err →
  run (perform this c) = ([CheckPrivileges (actions_of this c)], inl TypeError).
Proof.
  intros Hcheck Hnull. rewrite run_perform. simpl. rewrite Hcheck.
  apply get_body_error_null in Hnull. rewrite Hnull. reflexivity.
Qed.

(** C6. The claim has every error of the privilege checker re-raised as a
    Decorated-General error around it, with an undefined reason when there is
    no [body.error.reason].  The code departs from it for a checker error
    whose [body.error] is [null]: there is no [body.error.reason], [get]
    returns the [null] instead of its default, the destructuring throws, and
    the call fails with that TypeError without [decorateGeneralError] being
    called. *)
Theorem checker_error_with_null_detail_is_not_decorated :
  let this := sample_client (inl sample_null_error) in
  let c := call_get (Some "dashboard") "7" None in
  checkPrivileges this (actions_of this c) = inl sample_null_error
  ∧ nested_reason sample_null_error = None
  ∧ run (perform this c) =
      ([CheckPrivileges ["action:saved_objects/dashboard/get"]], inl TypeError)
  ∧ snd (run (perform this c)) ≠ inl (decorateGeneralError sample_null_error None).
Proof.
  split; [reflexivity|]. split; [reflexivity|].
  split; [vm_compute; reflexivity|].
  vm_compute. discriminate.
Qed.

(** C8. For each public operation and each outcome that selects a repository
    (AUTHORIZED selects the privileged one, LEGACY the legacy one): the
    client forwards the method with the arguments of the call, and the value
    the selected repository returns, or the error it throws, is the outcome
    of the call, unchanged. *)
Theorem delegate_outcome_unchanged {value : Type}
    (this : @SecureSavedObjectsClient value) (c : public_call) (r : check_result)
    (selected : repository) :
  checkPrivileges this (actions_of this c) = inr r →
  (result r = AUTHORIZED ∧ selected = _internalRepository this)
  ∨ (result r = LEGACY ∧ selected = _callWithRequestRepository this) →
  snd (run (perform this c)) = answer selected (method_of c)
  ∧ (∀ v, answer selected (method_of c) = inr v →
       snd (run (perform this c)) = inr v)
  ∧ (∀ e, answer selected (method_of c) = inl e →
       snd (run (perform this c)) = inl e)
  ∧ last (fst (run (perform this c))) = Some (Invoked (role selected) (method_of c)).
Proof.
  intros Hcheck Hsel.
  assert (Hrun : snd (run (perform this c)) = answer selected (method_of c)
                 ∧ last (fst (run (perform this c)))
                   = Some (Invoked (role selected) (method_of c))).
  { rewrite run_perform. simpl. rewrite Hcheck.
    destruct Hsel as [[-> ->]|[-> ->]]; split; reflexivity. }
  destruct Hrun as [Hres Hlast]. rewrite Hres.
  split; [reflexivity|]. split; [|split]; auto.
Qed.

Lemma delegate_outcome_unchanged_witness :
  let this := sample_client (sample_result LEGACY) in
  let c := call_find (Some {["type" := OString "dashboard"]}) in
  let r := {| result := LEGACY; username := "alice";
              missing := ["act:y"; "act:x"] |} in
  (checkPrivileges this (actions_of this c) = inr r
   ∧ ((result r = AUTHORIZED
       ∧ _callWithRequestRepository this = _internalRepository this)
      ∨ (result r = LEGACY
         ∧ _callWithRequestRepository this = _callWithRequestRepository this)))
  ∧ snd (run (perform this c)) = inl (Raw (new_Error "Not Found")).
Proof.
  intros this c r.
  assert (H1 : checkPrivileges this (actions_of this c) = inr r) by reflexivity.
  assert (H2 : (result r = AUTHORIZED
                ∧ _callWithRequestRepository this = _internalRepository this)
               ∨ (result r = LEGACY
                  ∧ _callWithRequestRepository this = _callWithRequestRepository this))
    by (right; split; reflexivity).
  split; [split; assumption|].
  pose proof (delegate_outcome_unchanged this c r _ H1 H2) as (Hres & _).
  exact Hres.
Defined.

(** Shared by the claims on what the checker is handed: the first thing a
    call does is to ask the checker, once, with the actions of the call. *)
Lemma checker_asked_once {value : Type}
    (this : @SecureSavedObjectsClient value) (c : public_call) :
  fst (run (perform this c)) !! 0 = Some (CheckPrivileges (actions_of this c))
  ∧ count is_check (fst (run (perform this c))) = 1.
Proof.
  rewrite run_perform. simpl.
  destruct (checkPrivileges this (actions_of this c)) as [err|r];
    [|destruct (result r)]; split; reflexivity.
Qed.

(** C5. For every collection of objects given to [bulkCreate] or [bulkGet],
    the actions handed to the privilege checker are the registry's actions
    for the distinct types of the collection, one per distinct type: a type
    occurring several times, wherever it occurs, contributes one action, and
    the actions follow the order in which the types first occur in the
    collection. *)
Theorem bulk_actions_one_per_distinct_type {value : Type}
    (this : @SecureSavedObjectsClient value) (objects : list jsobject)
    (options : option jsoptions) (c : public_call) :
  c = call_bulkCreate objects options ∨ c = call_bulkGet (Some objects) options →
  ∃ types actions,
    fst (run (perform this c)) !! 0 = Some (CheckPrivileges actions)
    ∧ count is_check (fst (run (perform this c))) = 1
    ∧ actions = map (λ type, getSavedObjectAction this type (action_of c)) types
    ∧ length actions = length types
    ∧ NoDup types
    ∧ (∀ type, type ∈ types ↔ ∃ o : jsobject, o ∈ objects ∧ o !! "type" = type)
    ∧ (∀ i j x y, types !! i = Some x → types !! j = Some y → i < j →
         ∃ p q, first_index x (map (λ o : jsobject, o !! "type") objects) = Some p
              ∧ first_index y (map (λ o : jsobject, o !! "type") objects) = Some q
              ∧ p < q).
Proof.
  intros Hc.
  exists (uniq (map (λ o : jsobject, o !! "type") objects)).
  exists (actions_of this c).
  destruct (checker_asked_once this c) as [Hfirst Hcount].
  split; [exact Hfirst|]. split; [exact Hcount|].
  assert (Htypes : types_of c = uniq (map (λ o : jsobject, o !! "type") objects))
    by (destruct Hc as [->| ->]; reflexivity).
  unfold actions_of. rewrite Htypes.
  split; [reflexivity|]. split; [apply length_map|].
  split; [apply uniq_NoDup|]. split.
  - intros type. rewrite uniq_elem, list_elem_of_fmap. split.
    + intros (o & -> & Ho). exists o. split; [exact Ho|reflexivity].
    + intros (o & Ho & <-). exists o. split; [reflexivity|exact Ho].
  - apply uniq_first_occurrence_order.
Qed.

Lemma bulk_actions_one_per_distinct_type_witness :
  let this := sample_client (sample_result AUTHORIZED) in
  let c := call_bulkCreate sample_objects None in
  (c = call_bulkCreate sample_objects None
   ∨ c = call_bulkGet (Some sample_objects) None)
  ∧ ∃ types actions,
      fst (run (perform this c)) !! 0 = Some (CheckPrivileges actions)
      ∧ actions = map (λ type, getSavedObjectAction this type (action_of c)) types
      ∧ NoDup types.
Proof.
  intros this c.
  assert (H : c = call_bulkCreate sample_objects None
              ∨ c = call_bulkGet (Some sample_objects) None)
    by (left; reflexivity).
  split; [exact H|].
  destruct (bulk_actions_one_per_distinct_type this sample_objects None c H)
    as (types & actions & Hfirst & _ & Hactions & _ & Hnodup & _).
  exists types, actions. repeat split; assumption.
Defined.

(** The example of the specification: the types [b, a, b] give the actions
    of [b] and [a], in that order. *)
Example bulk_actions_example :
  fst (run (perform (sample_client (sample_result LEGACY))
              (call_bulkCreate sample_objects None))) !! 0 =
  Some (CheckPrivileges ["action:saved_objects/b/bulk_create";
                         "action:saved_objects/a/bulk_create"]).
Proof. vm_compute. reflexivity. Qed.

(** C7, as the specification states it, asks for exactly one audit event in
    every call.  A call answered LEGACY asks the checker once and records no
    audit event. *)
Lemma legacy_call_records_no_audit_event :
  let tr := fst (run (perform (sample_client (sample_result LEGACY))
                        (call_get (Some "dashboard") "7" None))) in
  count is_check tr = 1 ∧ count is_audit tr = 0 ∧ count is_audit tr ≠ 1.
Proof. vm_compute. repeat split. discriminate. Qed.

(** C7, amended. In every public call the privilege checker is asked exactly
    once, before anything else; at most one audit event is recorded, exactly
    one when the checker answers AUTHORIZED or UNAUTHORIZED and none when it
    answers LEGACY or an unrecognized result or throws; at most one
    repository call is made, and only after the checker has been asked and
    has answered. *)
Theorem one_check_at_most_one_audit {value : Type}
    (this : @SecureSavedObjectsClient value) (c : public_call) :
  count is_check (fst (run (perform this c))) = 1
  ∧ fst (run (perform this c)) !! 0 = Some (CheckPrivileges (actions_of this c))
  ∧ (count is_audit (fst (run (perform this c))) ≤ 1)%nat
  ∧ count is_audit (fst (run (perform this c))) =
      match checkPrivileges this (actions_of this c) with
      | inr r => match result r with
                 | AUTHORIZED | UNAUTHORIZED => 1
                 | LEGACY | Unrecognized _ => 0
                 end
      | inl _ => 0
      end
  ∧ (count is_delegate (fst (run (perform this c))) ≤ 1)%nat
  ∧ preceded_by is_check is_delegate (fst (run (perform this c)))
  ∧ (0 < count is_delegate (fst (run (perform this c))) →
       ∃ r, checkPrivileges this (actions_of this c) = inr r).
Proof.
  rewrite run_perform. simpl.
  destruct (checkPrivileges this (actions_of this c)) as [err|r];
    [|destruct (result r)]; simpl;
    (split; [reflexivity|]); (split; [reflexivity|]); (split; [lia|]);
    (split; [reflexivity|]); (split; [lia|]);
    (split; [|first [intros H; exfalso; lia | intros _; eexists; reflexivity]]).
  all: intros j ev Hj Hq; by_position j Hj Hq.
  all: exists 0; eexists; repeat split; lia.
Qed.

(** C9. [find] called without a type filter ([options] left out, or without
    a [type] property) is handled as a call on the single type [undefined]:
    one action is derived, the registry's action for [undefined] and "find",
    and the call goes through the usual sequence: the checker is asked with
    that action, then the call is audited and forwarded, forwarded, refused
    or failed by the checker's outcome. *)
Theorem find_without_type_filter {value : Type}
    (this : @SecureSavedObjectsClient value) (options : option jsoptions) :
  or_default ∅ options !! "type" = None →
  types_of (call_find options) = [None]
  ∧ actions_of this (call_find options) = [getSavedObjectAction this None "find"]
  ∧ length (actions_of this (call_find options)) = 1
  ∧ fst (run (find this options)) !! 0 =
      Some (CheckPrivileges [getSavedObjectAction this None "find"])
  ∧ check_branch_audit_dispatch this "find" [None]
      [getSavedObjectAction this None "find"]
      {| args_type := None; args_id := None; args_attributes := None;
         args_objects := None; args_options := Some (or_default ∅ options) |}
      (Find (or_default ∅ options))
      (run (find this options)).
Proof.
  intros Htype.
  assert (Htypes : types_of (call_find options) = [None])
    by (unfold types_of; simpl; rewrite Htype; reflexivity).
  assert (Hactions : actions_of this (call_find options)
                     = [getSavedObjectAction this None "find"])
    by (unfold actions_of; rewrite Htypes; reflexivity).
  split; [exact Htypes|]. split; [exact Hactions|].
  split; [rewrite Hactions; reflexivity|].
  pose proof (checker_asked_once this (call_find options)) as [Hfirst _].
  pose proof (perform_check_branch_audit_dispatch this (call_find options)) as Hseq.
  rewrite Hactions in Hfirst. rewrite Htypes, Hactions in Hseq.
  split; [exact Hfirst|exact Hseq].
Qed.

Lemma find_without_type_filter_witness :
  let this := sample_client (sample_result AUTHORIZED) in
  (or_default (∅ : jsoptions) None !! "type" = None)
  ∧ fst (run (find this None)) !! 0 =
      Some (CheckPrivileges [getSavedObjectAction this None "find"])
  ∧ length (actions_of this (call_find None)) = 1.
Proof.
  intros this.
  assert (H : or_default (∅ : jsoptions) None !! "type" = None)
    by (vm_compute; reflexivity).
  split; [exact H|].
  pose proof (find_without_type_filter this None H) as (_ & _ & Hlen & Hfirst & _).
  split; [exact Hfirst|exact Hlen].
Defined.

(** C10. A bulk operation on an empty collection ([bulkGet] called without
    its collection, which then defaults to the empty one, or with an empty
    one; [bulkCreate] with an empty one) is not cut short: the checker is
    asked exactly once, with the empty list of actions, and the call goes
    through the usual sequence by the checker's outcome. *)
Theorem empty_bulk_is_still_checked {value : Type}
    (this : @SecureSavedObjectsClient value) (options : option jsoptions)
    (c : public_call) :
  c = call_bulkGet None options ∨ c = call_bulkGet (Some []) options
  ∨ c = call_bulkCreate [] options →
  types_of c = []
  ∧ actions_of this c = []
  ∧ fst (run (perform this c)) !! 0 = Some (CheckPrivileges [])
  ∧ count is_check (fst (run (perform this c))) = 1
  ∧ check_branch_audit_dispatch this (action_of c) [] [] (args_of c) (method_of c)
      (run (perform this c)).
Proof.
  intros Hc.
  assert (Htypes : types_of c = []) by (destruct Hc as [->|[->| ->]]; reflexivity).
  assert (Hactions : actions_of this c = [])
    by (unfold actions_of; rewrite Htypes; reflexivity).
  split; [exact Htypes|]. split; [exact Hactions|].
  pose proof (checker_asked_once this c) as [Hfirst Hcount].
  pose proof (perform_check_branch_audit_dispatch this c) as Hseq.
  rewrite Hactions in Hfirst. rewrite Htypes, Hactions in Hseq.
  split; [exact Hfirst|]. split; [exact Hcount|exact Hseq].
Qed.

Lemma empty_bulk_is_still_checked_witness :
  let this := sample_client (sample_result UNAUTHORIZED) in
  let c := call_bulkGet None None in
  (c = call_bulkGet None None ∨ c = call_bulkGet (Some []) None
   ∨ c = call_bulkCreate [] None)
  ∧ fst (run (perform this c)) !! 0 = Some (CheckPrivileges [])
  ∧ count is_check (fst (run (perform this c))) = 1.
Proof.
  intros this c.
  assert (H : c = call_bulkGet None None ∨ c = call_bulkGet (Some []) None
              ∨ c = call_bulkCreate [] None) by (left; reflexivity).
  split; [exact H|].
  pose proof (empty_bulk_is_still_checked this None c H)
    as (_ & _ & Hfirst & Hcount & _).
  split; [exact Hfirst|exact Hcount].
Defined.

(** * Further properties of the client *)

(** ** Which outcome a trace tells *)

(** X1. The converse of the routing: in any public call the privileged
    (internal) repository is invoked exactly when the checker answered
    AUTHORIZED, and the legacy repository exactly when it answered LEGACY. *)
Theorem repository_invoked_iff_outcome {value : Type}
    (this : @SecureSavedObjectsClient value) (c : public_call) :
  (0 < count (is_invoked Internal) (fst (run (perform this c))) ↔
     ∃ r, checkPrivileges this (actions_of this c) = inr r ∧ result r = AUTHORIZED)
  ∧ (0 < count (is_invoked CallWithRequest) (fst (run (perform this c))) ↔
     ∃ r, checkPrivileges this (actions_of this c) = inr r ∧ result r = LEGACY).
Proof.
  rewrite run_perform. simpl.
  destruct (checkPrivileges this (actions_of this c)) as [err|r].
  - simpl. split; (split; [lia|intros (r & Hr & _); discriminate Hr]).
  - destruct (result r) eqn:Hres; simpl;
      (split; (split;
        [ first [ lia | intros _; exists r; split; [reflexivity|exact Hres] ]
        | first [ intros _; lia
                | intros (r' & [= <-] & Hr'); rewrite Hres in Hr'; discriminate Hr' ] ])).
Qed.

(** X2. A public call returns a value only when the checker answered
    AUTHORIZED or LEGACY, and the value is then what the repository selected
    by that answer returned for the forwarded method: nothing is returned on
    UNAUTHORIZED, on an unrecognized result, or when the checker throws. *)
Theorem value_only_from_selected_repository {value : Type}
    (this : @SecureSavedObjectsClient value) (c : public_call) (v : value) :
  snd (run (perform this c)) = inr v →
  ∃ r, checkPrivileges this (actions_of this c) = inr r
       ∧ ((result r = AUTHORIZED ∧ internalRepository this (method_of c) = inr v)
          ∨ (result r = LEGACY
             ∧ callWithRequestRepository this (method_of c) = inr v)).
Proof.
  rewrite run_perform. simpl.
  destruct (checkPrivileges this (actions_of this c)) as [err|r];
    [destruct (get_body_error err _); intros H; discriminate H|].
  destruct (result r) eqn:Hres; simpl; intros H; try discriminate H;
    exists r; (split; [reflexivity|]); [left|right]; split; auto.
Qed.

Lemma value_only_from_selected_repository_witness :
  let this := sample_client (sample_result AUTHORIZED) in
  let c := call_get (Some "dashboard") "7" None in
  snd (run (perform this c)) = inr "from the internal repository"
  ∧ ∃ r, checkPrivileges this (actions_of this c) = inr r
         ∧ ((result r = AUTHORIZED
             ∧ internalRepository this (method_of c)
               = inr "from the internal repository")
            ∨ (result r = LEGACY
               ∧ callWithRequestRepository this (method_of c)
                 = inr "from the internal repository")).
Proof.
  intros this c.
  assert (H : snd (run (perform this c)) = inr "from the internal repository")
    by (vm_compute; reflexivity).
  split; [exact H|].
  exact (value_only_from_selected_repository this c _ H).
Defined.

(** X3. The audit trail tells the decision: an authorization-success event
    is recorded exactly when the checker answered AUTHORIZED, an
    authorization-failure event exactly when it answered UNAUTHORIZED, and
    no call records both. *)
Theorem audit_kind_iff_outcome {value : Type}
    (this : @SecureSavedObjectsClient value) (c : public_call) :
  (0 < count is_audit_success (fst (run (perform this c))) ↔
     ∃ r, checkPrivileges this (actions_of this c) = inr r ∧ result r = AUTHORIZED)
  ∧ (0 < count is_audit_failure (fst (run (perform this c))) ↔
     ∃ r, checkPrivileges this (actions_of this c) = inr r
          ∧ result r = UNAUTHORIZED)
  ∧ (count is_audit_success (fst (run (perform this c)))
     + count is_audit_failure (fst (run (perform this c))) ≤ 1)%nat.
Proof.
  rewrite run_perform. simpl.
  destruct (checkPrivileges this (actions_of this c)) as [err|r].
  - simpl. split; [|split; [|lia]];
      (split; [lia|intros (r & Hr & _); discriminate Hr]).
  - destruct (result r) eqn:Hres; simpl; (split; [|split; [|lia]]);
      (split;
        [ first [ lia | intros _; exists r; split; [reflexivity|exact Hres] ]
        | first [ intros _; lia
                | intros (r' & [= <-] & Hr'); rewrite Hres in Hr'; discriminate Hr' ] ]).
Qed.

(** ** What the decision depends on *)

(** X4. The privilege check looks at the operation kind and the type(s)
    only: two calls of the same kind on the same types, whatever their ids,
    attributes and options, ask the checker the same question, leave the same
    kinds of events behind, and, when no repository is reached, fail with the
    same error. *)
Theorem decision_depends_on_kind_and_types {value : Type}
    (this : @SecureSavedObjectsClient value) (c1 c2 : public_call) :
  action_of c1 = action_of c2 → types_of c1 = types_of c2 →
  actions_of this c1 = actions_of this c2
  ∧ count is_audit_success (fst (run (perform this c1)))
    = count is_audit_success (fst (run (perform this c2)))
  ∧ count is_audit_failure (fst (run (perform this c1)))
    = count is_audit_failure (fst (run (perform this c2)))
  ∧ count (is_invoked Internal) (fst (run (perform this c1)))
    = count (is_invoked Internal) (fst (run (perform this c2)))
  ∧ count (is_invoked CallWithRequest) (fst (run (perform this c1)))
    = count (is_invoked CallWithRequest) (fst (run (perform this c2)))
  ∧ (count is_delegate (fst (run (perform this c1))) = 0 →
       snd (run (perform this c1)) = snd (run (perform this c2))).
Proof.
  intros Hkind Htypes.
  assert (Hactions : actions_of this c1 = actions_of this c2)
    by (unfold actions_of; rewrite Hkind, Htypes; reflexivity).
  split; [exact Hactions|].
  rewrite !run_perform. simpl. rewrite Hactions, Hkind, Htypes.
  destruct (checkPrivileges this (actions_of this c2)) as [err|r];
    [|destruct (result r)]; simpl; repeat split; intros H; discriminate H.
Qed.

Lemma decision_depends_on_kind_and_types_witness :
  let this := sample_client (sample_result UNAUTHORIZED) in
  let c1 := call_get (Some "dashboard") "7" None in
  let c2 := call_get (Some "dashboard") "8" (Some {["namespace" := OString "x"]}) in
  (action_of c1 = action_of c2 ∧ types_of c1 = types_of c2)
  ∧ actions_of this c1 = actions_of this c2
  ∧ count is_audit_failure (fst (run (perform this c1)))
    = count is_audit_failure (fst (run (perform this c2))).
Proof.
  intros this c1 c2.
  assert (H1 : action_of c1 = action_of c2) by reflexivity.
  assert (H2 : types_of c1 = types_of c2) by reflexivity.
  split; [split; assumption|].
  pose proof (decision_depends_on_kind_and_types this c1 c2 H1 H2)
    as (Hactions & _ & Hfailure & _).
  split; [exact Hactions|exact Hfailure].
Defined.

(** ** Bulk operations *)

Lemma baseUniq_length (array result : list so_type) :
  (length (baseUniq array result) ≤ length array + length result)%nat.
Proof.
  revert result. induction array as [|x array IH]; intros result; simpl.
  - lia.
  - case_bool_decide.
    + specialize (IH result). lia.
    + specialize (IH (result ++ [x])). rewrite length_app in IH. simpl in IH. lia.
Qed.

Lemma NoDup_all_equal (t : so_type) (l : list so_type) :
  NoDup l → t ∈ l → (∀ x, x ∈ l → x = t) → l = [t].
Proof.
  intros Hnd Ht Hall. destruct l as [|a [|b l]].
  - by apply elem_of_nil in Ht.
  - rewrite (Hall a) by left. reflexivity.
  - exfalso. apply NoDup_cons in Hnd as [Hnotin _]. apply Hnotin.
    rewrite (Hall a) by left.
    rewrite <- (Hall b) at 1 by (right; left). left.
Qed.

Lemma bulk_types_of (objects : list jsobject) (options : option jsoptions)
    (c : public_call) :
  c = call_bulkCreate objects options ∨ c = call_bulkGet (Some objects) options →
  types_of c = uniq (map (λ o : jsobject, o !! "type") objects).
Proof. intros [->| ->]; reflexivity. Qed.

(** X5. A bulk operation on a non-empty collection whose objects all have
    the same type (or all lack one) asks for exactly one action, however many
    objects there are. *)
Theorem bulk_of_one_type_asks_one_action {value : Type}
    (this : @SecureSavedObjectsClient value) (objects : list jsobject)
    (options : option jsoptions) (c : public_call) (t : so_type) :
  c = call_bulkCreate objects options ∨ c = call_bulkGet (Some objects) options →
  objects ≠ [] →
  (∀ o : jsobject, o ∈ objects → o !! "type" = t) →
  types_of c = [t]
  ∧ fst (run (perform this c)) !! 0 =
      Some (CheckPrivileges [getSavedObjectAction this t (action_of c)]).
Proof.
  intros Hc Hne Hall.
  assert (Htypes : types_of c = [t]).
  { rewrite (bulk_types_of objects options c Hc).
    apply NoDup_all_equal.
    - apply uniq_NoDup.
    - apply uniq_elem. destruct objects as [|o objects]; [contradiction|].
      simpl. rewrite (Hall o) by left. left.
    - intros x Hx. rewrite uniq_elem in Hx.
      apply list_elem_of_fmap in Hx as (o & -> & Ho). apply Hall. exact Ho. }
  split; [exact Htypes|].
  destruct (checker_asked_once this c) as [Hfirst _].
  rewrite Hfirst. unfold actions_of. rewrite Htypes. reflexivity.
Qed.

Lemma bulk_of_one_type_asks_one_action_witness :
  let this := sample_client (sample_result LEGACY) in
  let c := call_bulkGet (Some sample_dashboards) None in
  ((c = call_bulkCreate sample_dashboards None
    ∨ c = call_bulkGet (Some sample_dashboards) None)
   ∧ sample_dashboards ≠ []
   ∧ (∀ o : jsobject, o ∈ sample_dashboards → o !! "type" = Some "dashboard"))
  ∧ types_of c = [Some "dashboard"].
Proof.
  intros this c.
  assert (H1 : c = call_bulkCreate sample_dashboards None
               ∨ c = call_bulkGet (Some sample_dashboards) None)
    by (right; reflexivity).
  assert (H2 : sample_dashboards ≠ []) by discriminate.
  assert (H3 : ∀ o : jsobject, o ∈ sample_dashboards → o !! "type" = Some "dashboard").
  { intros o Ho. unfold sample_dashboards in Ho.
    apply elem_of_cons in Ho as [->|Ho]; [vm_compute; reflexivity|].
    apply elem_of_cons in Ho as [->|Ho]; [vm_compute; reflexivity|].
    by apply elem_of_nil in Ho. }
  split; [repeat split; assumption|].
  pose proof (bulk_of_one_type_asks_one_action this sample_dashboards None c
                (Some "dashboard") H1 H2 H3) as (Htypes & _).
  exact Htypes.
Defined.

(** X6. A bulk operation never asks for more actions than it is given
    objects. *)
Theorem bulk_actions_at_most_objects {value : Type}
    (this : @SecureSavedObjectsClient value) (objects : list jsobject)
    (options : option jsoptions) :
  (length (actions_of this (call_bulkCreate objects options)) ≤ length objects)%nat
  ∧ (length (actions_of this (call_bulkGet (Some objects) options))
     ≤ length objects)%nat.
Proof.
  assert (H : (length (uniq (map (λ o : jsobject, o !! "type") objects))
               ≤ length objects)%nat).
  { unfold uniq.
    pose proof (baseUniq_length (map (λ o : jsobject, o !! "type") objects) []) as H.
    rewrite length_map in H. simpl in H. lia. }
  unfold actions_of. rewrite !length_map. split; exact H.
Qed.

(** X7. Giving a bulk operation one more object changes what the checker is
    asked only if the type of the object is new: an object of a type already
    in the collection adds nothing, an object of a new type adds the action
    of that type after the others. *)
Theorem bulk_one_more_object {value : Type}
    (this : @SecureSavedObjectsClient value) (objects : list jsobject)
    (o : jsobject) (options : option jsoptions) :
  actions_of this (call_bulkCreate (objects ++ [o]) options) =
    (if bool_decide (o !! "type" ∈ map (λ o' : jsobject, o' !! "type") objects)
     then actions_of this (call_bulkCreate objects options)
     else actions_of this (call_bulkCreate objects options)
            ++ [getSavedObjectAction this (o !! "type") "bulk_create"])
  ∧ actions_of this (call_bulkGet (Some (objects ++ [o])) options) =
    (if bool_decide (o !! "type" ∈ map (λ o' : jsobject, o' !! "type") objects)
     then actions_of this (call_bulkGet (Some objects) options)
     else actions_of this (call_bulkGet (Some objects) options)
            ++ [getSavedObjectAction this (o !! "type") "bulk_get"]).
Proof.
  unfold actions_of, types_of. simpl.
  rewrite !map_app. simpl. rewrite !uniq_snoc.
  destruct (decide (o !! "type" ∈ map (λ o' : jsobject, o' !! "type") objects))
    as [Hin|Hnotin].
  - rewrite !bool_decide_eq_true_2 by exact Hin. split; reflexivity.
  - rewrite !bool_decide_eq_false_2 by exact Hnotin.
    rewrite !map_app. split; reflexivity.
Qed.

(** X8. The order of the objects of a bulk operation matters only for the
    order of the actions: two collections that are rearrangements of each
    other give the same types and the same actions up to rearrangement, and
    the same Forbidden message when the same actions are missing. *)
Theorem bulk_order_of_objects_irrelevant {value : Type}
    (this : @SecureSavedObjectsClient value) (objects1 objects2 : list jsobject)
    (options1 options2 : option jsoptions) (c1 c2 : public_call) :
  objects1 ≡ₚ objects2 →
  (c1 = call_bulkCreate objects1 options1 ∧ c2 = call_bulkCreate objects2 options2)
  ∨ (c1 = call_bulkGet (Some objects1) options1
     ∧ c2 = call_bulkGet (Some objects2) options2) →
  types_of c1 ≡ₚ types_of c2
  ∧ actions_of this c1 ≡ₚ actions_of this c2
  ∧ ∀ missing1 missing2, missing1 ≡ₚ missing2 →
      forbidden_message (action_of c1) (types_of c1) missing1 =
      forbidden_message (action_of c2) (types_of c2) missing2.
Proof.
  intros Hperm Hc.
  assert (Hkind : action_of c1 = action_of c2)
    by (destruct Hc as [[-> ->]|[-> ->]]; reflexivity).
  assert (Htypes : types_of c1 ≡ₚ types_of c2).
  { assert (H1 : types_of c1 = uniq (map (λ o : jsobject, o !! "type") objects1))
      by (destruct Hc as [[-> _]|[-> _]]; reflexivity).
    assert (H2 : types_of c2 = uniq (map (λ o : jsobject, o !! "type") objects2))
      by (destruct Hc as [[_ ->]|[_ ->]]; reflexivity).
    rewrite H1, H2. apply NoDup_Permutation; try apply uniq_NoDup.
    intros x. rewrite !uniq_elem.
    assert (Hmap : map (λ o : jsobject, o !! "type") objects1
                   ≡ₚ map (λ o : jsobject, o !! "type") objects2)
      by (apply Permutation_map; exact Hperm).
    rewrite Hmap. reflexivity. }
  split; [exact Htypes|]. split.
  - unfold actions_of. rewrite Hkind. apply Permutation_map. exact Htypes.
  - intros missing1 missing2 Hmissing. rewrite Hkind.
    apply forbidden_message_order_irrelevant; assumption.
Qed.

Lemma bulk_order_of_objects_irrelevant_witness :
  let this := sample_client (sample_result UNAUTHORIZED) in
  let objects1 : list jsobject := [ {["type" := "b"]}; {["type" := "a"]} ] in
  let objects2 : list jsobject := [ {["type" := "a"]}; {["type" := "b"]} ] in
  let c1 := call_bulkGet (Some objects1) None in
  let c2 := call_bulkGet (Some objects2) None in
  (objects1 ≡ₚ objects2
   ∧ ((c1 = call_bulkCreate objects1 None ∧ c2 = call_bulkCreate objects2 None)
      ∨ (c1 = call_bulkGet (Some objects1) None
         ∧ c2 = call_bulkGet (Some objects2) None)))
  ∧ actions_of this c1 ≡ₚ actions_of this c2.
Proof.
  intros this objects1 objects2 c1 c2.
  assert (H1 : objects1 ≡ₚ objects2) by apply perm_swap.
  assert (H2 : (c1 = call_bulkCreate objects1 None
                ∧ c2 = call_bulkCreate objects2 None)
               ∨ (c1 = call_bulkGet (Some objects1) None
                  ∧ c2 = call_bulkGet (Some objects2) None))
    by (right; split; reflexivity).
  split; [split; assumption|].
  pose proof (bulk_order_of_objects_irrelevant this objects1 objects2 None None
                c1 c2 H1 H2) as (_ & Hactions & _).
  exact Hactions.
Defined.

(** ** The message of a refused single-type operation *)

(** X9. When [create], [delete], [find], [get] or [update] is refused, the
    Forbidden message names the one type of the call as it is, and names
    nothing when the type is undefined (a [find] without a type filter reads
    [Unable to find , missing ...]). *)
Theorem single_type_forbidden_message {value : Type}
    (this : @SecureSavedObjectsClient value) (c : public_call) (t : so_type)
    (r : check_result) :
  typeOrTypes_of c = OneType t →
  checkPrivileges this (actions_of this c) = inr r →
  result r = UNAUTHORIZED →
  snd (run (perform this c)) =
    inl (decorateForbiddenError (new_Error
      ("Unable to " +:+ action_of c +:+ " " +:+ default "" t
         +:+ ", missing " +:+ join_actions (sort_actions (missing r)))))
  ∧ (t = None →
     snd (run (perform this c)) =
       inl (decorateForbiddenError (new_Error
         ("Unable to " +:+ action_of c +:+ " , missing "
            +:+ join_actions (sort_actions (missing r)))))).
Proof.
  intros Ht Hcheck Hr.
  assert (Hrun : snd (run (perform this c)) =
    inl (decorateForbiddenError (new_Error
      ("Unable to " +:+ action_of c +:+ " " +:+ default "" t
         +:+ ", missing " +:+ join_actions (sort_actions (missing r)))))).
  { rewrite run_perform. simpl. rewrite Hcheck, Hr. simpl.
    unfold forbidden_message, types_of. rewrite Ht. reflexivity. }
  split; [exact Hrun|].
  intros ->. rewrite Hrun. reflexivity.
Qed.

Lemma single_type_forbidden_message_witness :
  let this := sample_client (sample_result UNAUTHORIZED) in
  let c := call_find None in
  let r := {| result := UNAUTHORIZED; username := "alice";
              missing := ["act:y"; "act:x"] |} in
  (typeOrTypes_of c = OneType None
   ∧ checkPrivileges this (actions_of this c) = inr r
   ∧ result r = UNAUTHORIZED)
  ∧ snd (run (perform this c)) =
      inl (decorateForbiddenError
             (new_Error "Unable to find , missing act:x,act:y")).
Proof.
  intros this c r.
  assert (H1 : typeOrTypes_of c = OneType None) by (vm_compute; reflexivity).
  assert (H2 : checkPrivileges this (actions_of this c) = inr r) by reflexivity.
  assert (H3 : result r = UNAUTHORIZED) by reflexivity.
  split; [repeat split; assumption|].
  pose proof (single_type_forbidden_message this c None r H1 H2 H3) as (Hres & _).
  rewrite Hres. vm_compute. reflexivity.
Defined.
